(** * A shallow embedding of [src/models/match.player.ts]

    One player's state in the naval combat game: the board with its ships
    and per-cell hit flags, the attacks the player has made, the attack
    resolution [determineAttackResult], the redacted opponent view
    [toOpponentJSON], and serialisation [toJSON] / [MatchPlayer.from].

    Modelling conventions.
    - A JavaScript object keyed by ship type is an association list in key
      insertion order (the order of [for ... in], [Object.keys] and
      [Object.values] for non-integer string keys).  Property assignment
      [o[k] = v] is [prop_set]: it overwrites the value in place when the
      key exists and appends the key otherwise.
    - Attack payload objects ([AttackDataPayload]) live in a heap and
      stored attack records point to them, so that the sharing between a
      shallow copy [{...a}] and the stored record [a] is visible.
    - The external collaborators ([ShipSize], the cell coverage function and
      [getRandomShipLayout] of [@app/game/types] and [@app/utils]) are
      section variables. *)

From Stdlib Require Import ZArith List Bool String Lia.
From Stdlib Require Import Sorting.Permutation Sorting.Sorted.
Import ListNotations.
Open Scope Z_scope.

(** ** Game types ([@app/game/types]) *)

(** Modelled from the spec: the enumerated ship kinds of [@app/game/types]
    (not under src/); the spec names Battleship, Destroyer and Submarine
    among a fixed set. *)
Inductive ShipType := Carrier | Battleship | Destroyer | Submarine.

Definition ShipType_eq_dec (a b : ShipType) : {a = b} + {a <> b}.
Proof. decide equality. Defined.

Inductive Orientation := Horizontal | Vertical.

(** A cell position [[x, y]]. *)
Definition CellPosition := (Z * Z)%type.

(** Modelled from the spec: [isSameOrigin] of [@app/utils] (not under
    src/); cell equality is value based. *)
Definition isSameOrigin (a b : CellPosition) : bool :=
  (fst a =? fst b) && (snd a =? snd b).

(** ** JavaScript objects keyed by ship type *)

Fixpoint prop_get {V} (k : ShipType) (o : list (ShipType * V)) : option V :=
  match o with
  | [] => None
  | (k', v) :: r => if ShipType_eq_dec k k' then Some v else prop_get k r
  end.

Fixpoint prop_set {V} (k : ShipType) (v : V) (o : list (ShipType * V))
  : list (ShipType * V) :=
  match o with
  | [] => [(k, v)]
  | (k', v') :: r =>
      if ShipType_eq_dec k k' then (k', v) :: r else (k', v') :: prop_set k v r
  end.

(** ** JavaScript values for the [score] option

    The constructor's [score] may be anything the cache hands over.  A
    number is modelled as an integer (scores are integral); [NaN],
    [undefined], [null] and booleans are the other values modelled. *)
Inductive JSValue :=
| JSNumber (n : Z)
| JSNaN
| JSUndefined
| JSNull
| JSBool (b : bool).

(** The global [isNaN(v)], i.e. [Number.isNaN(ToNumber(v))]:
    [ToNumber(undefined)] is [NaN], [ToNumber(null)] is [0],
    [ToNumber(true)] is [1] and [ToNumber(false)] is [0]. *)
Definition isNaN (v : JSValue) : bool :=
  match v with
  | JSNumber _ => false
  | JSNaN => true
  | JSUndefined => true
  | JSNull => false
  | JSBool _ => false
  end.

(** ** Stored data types *)

Record StoredShipDataCell := {
  cell_origin : CellPosition;
  cell_hit : bool;
  cell_type : ShipType
}.

Record StoredShipData := {
  sunk : bool;
  ship_type : ShipType;
  ship_origin : CellPosition;
  ship_orientation : Orientation;
  cells : list StoredShipDataCell
}.

Definition PlayerPositionData := list (ShipType * StoredShipData).

Record MatchPlayerBoardData := {
  valid : bool;
  positions : PlayerPositionData
}.

(** The [{origin, orientation}] placement of one ship in [ShipPositionData]. *)
Record ShipPlacement := {
  placement_origin : CellPosition;
  placement_orientation : Orientation
}.

Definition ShipPositionData := list (ShipType * ShipPlacement).

(** Modelled from the spec: the prediction annotation of an incoming attack
    ([@app/payloads/incoming], not under src/); its content is opaque. *)
Record Prediction := {
  prediction_origin : CellPosition;
  prediction_score : Z
}.

(** [AttackDataPayload]: an origin and an optional prediction. *)
Record AttackDataPayload := {
  attack_origin : CellPosition;
  prediction : option Prediction
}.

(** [AttackResult] of [@app/payloads/common]: a miss [{hit: false, origin}]
    or the hit cell spread with [destroyed]:
    [{origin, hit: true, type, destroyed}]. *)
Inductive AttackResult :=
| AttackMiss (origin : CellPosition)
| AttackHit (origin : CellPosition) (type : ShipType) (destroyed : bool).

Definition result_hit (r : AttackResult) : bool :=
  match r with
  | AttackMiss _ => false
  | AttackHit _ _ _ => true
  end.

(** Heap of attack payload objects; a [Loc] is a reference. *)
Definition Loc := nat.
Definition Heap := list AttackDataPayload.

Fixpoint heap_update (h : Heap) (l : Loc)
  (f : AttackDataPayload -> AttackDataPayload) : Heap :=
  match h, l with
  | [], _ => []
  | x :: r, O => f x :: r
  | x :: r, S l' => x :: heap_update r l' f
  end.

Record StoredAttackData := {
  ts : Z;
  attack : Loc;
  result : AttackResult
}.

Record MatchPlayer := {
  player_uuid : string;
  username : string;
  isAi : bool;
  player_match : string;
  score : JSValue;
  board : MatchPlayerBoardData;
  attacks : list StoredAttackData
}.

(** [MatchPlayerData], the output of [toJSON] and input of [from]. *)
Record MatchPlayerData := {
  data_board : MatchPlayerBoardData;
  data_isAi : bool;
  data_username : string;
  data_match : string;
  data_attacks : list StoredAttackData;
  data_score : JSValue;
  data_uuid : string
}.

(** The constructor's [opts]; [board] and [attacks] are optional. *)
Record MatchPlayerOpts := {
  opts_username : string;
  opts_isAi : bool;
  opts_uuid : string;
  opts_match : string;
  opts_score : JSValue;
  opts_board : option MatchPlayerBoardData;
  opts_attacks : option (list StoredAttackData)
}.

Record OpponentPositionData := {
  opp_valid : bool;
  opp_positions : list (ShipType * StoredShipData)
}.

Record MatchOpponentData := {
  opp_username : string;
  opp_attacks : list StoredAttackData;
  opp_board : OpponentPositionData
}.

(** ** [MatchPlayer] methods *)

Section Construction.

(** [ShipSize] of [@app/game/types]: the fixed size of each ship type. *)
Variable ShipSize : ShipType -> nat.

(** [getCellCoverageForOriginOrientationAndArea] of [@app/utils]. *)
Variable getCellCoverageForOriginOrientationAndArea :
  CellPosition -> Orientation -> nat -> list CellPosition.

(** The value returned by the call [getRandomShipLayout()]. *)
Variable getRandomShipLayout : ShipPositionData.

(** The stored ship built for [type] from its placement in
    [createPositionDataWithCells]:
    [{ sunk: false, ...shipData, type, cells: cells.map(...) }]. *)
Definition createShipWithCells (type : ShipType) (shipData : ShipPlacement)
  : StoredShipData :=
  let cs := getCellCoverageForOriginOrientationAndArea
              (placement_origin shipData) (placement_orientation shipData)
              (ShipSize type) in
  {| sunk := false;
     ship_origin := placement_origin shipData;
     ship_orientation := placement_orientation shipData;
     ship_type := type;
     cells := map (fun origin =>
                     {| cell_hit := false; cell_origin := origin;
                        cell_type := type |}) cs |}.

(** [createPositionDataWithCells]: [Object.keys(data).reduce(...)] with
    [updated[type] = ...] on an initially empty object. *)
Definition createPositionDataWithCells (data : ShipPositionData)
  : PlayerPositionData :=
  fold_left (fun updated '(type, shipData) =>
               prop_set type (createShipWithCells type shipData) updated)
            data [].

(** [constructor(opts)]; [super(opts.uuid)] stores the uuid
    (see [getUUID] below). *)
Definition new_MatchPlayer (opts : MatchPlayerOpts) : MatchPlayer :=
  {| player_uuid := opts_uuid opts;
     player_match := opts_match opts;
     attacks := match opts_attacks opts with Some a => a | None => [] end;
     score := if isNaN (opts_score opts) then JSNumber 0 else opts_score opts;
     username := opts_username opts;
     isAi := opts_isAi opts;
     board := match opts_board opts with
              | Some b => b
              | None =>
                  {| valid := false;
                     positions :=
                       createPositionDataWithCells getRandomShipLayout |}
              end |}.

(** [MatchPlayer.from(data)] is [new MatchPlayer(data)]. *)
Definition from (data : MatchPlayerData) : MatchPlayer :=
  new_MatchPlayer
    {| opts_username := data_username data;
       opts_isAi := data_isAi data;
       opts_uuid := data_uuid data;
       opts_match := data_match data;
       opts_score := data_score data;
       opts_board := Some (data_board data);
       opts_attacks := Some (data_attacks data) |}.

(** [setShipPositionData(data, valid)] replaces the whole board. *)
Definition setShipPositionData (p : MatchPlayer) (data : ShipPositionData)
  (v : bool) : MatchPlayer :=
  {| player_uuid := player_uuid p; username := username p; isAi := isAi p;
     player_match := player_match p; score := score p;
     attacks := attacks p;
     board := {| valid := v; positions := createPositionDataWithCells data |} |}.

End Construction.

(** Modelled from the spec: [getUUID] of the base class [Model] ([./model],
    not under src/) returns the uuid given to its constructor. *)
Definition getUUID (p : MatchPlayer) : string := player_uuid p.

Definition getMatchInstanceUUID (p : MatchPlayer) : string := player_match p.

(** Replace the board's positions, keeping the board's [valid] flag. *)
Definition with_positions (p : MatchPlayer) (ps : PlayerPositionData)
  : MatchPlayer :=
  {| player_uuid := player_uuid p; username := username p; isAi := isAi p;
     player_match := player_match p; score := score p; attacks := attacks p;
     board := {| valid := valid (board p); positions := ps |} |}.

Definition set_cell_hit (c : StoredShipDataCell) : StoredShipDataCell :=
  {| cell_origin := cell_origin c; cell_hit := true; cell_type := cell_type c |}.

Definition with_cells (s : StoredShipData) (cs : list StoredShipDataCell)
  : StoredShipData :=
  {| sunk := sunk s; ship_type := ship_type s; ship_origin := ship_origin s;
     ship_orientation := ship_orientation s; cells := cs |}.

Definition set_sunk (s : StoredShipData) : StoredShipData :=
  {| sunk := true; ship_type := ship_type s; ship_origin := ship_origin s;
     ship_orientation := ship_orientation s; cells := cells s |}.

(** [ship.cells.find((c) => isSameOrigin(c.origin, origin))] followed by
    [hitCell.hit = true]: the first matching cell, already updated, and the
    cell list after the update. *)
Fixpoint find_and_hit (origin : CellPosition) (cs : list StoredShipDataCell)
  : option (StoredShipDataCell * list StoredShipDataCell) :=
  match cs with
  | [] => None
  | c :: r =>
      if isSameOrigin (cell_origin c) origin
      then Some (set_cell_hit c, set_cell_hit c :: r)
      else match find_and_hit origin r with
           | Some (hc, r') => Some (hc, c :: r')
           | None => None
           end
  end.

(** [ship.cells.reduce((_destroyed, v) => _destroyed && v.hit, true)] *)
Definition all_cells_hit (cs : list StoredShipDataCell) : bool :=
  fold_left (fun d v => d && cell_hit v) cs true.

(** The [for (const key in positions)] loop of [determineAttackResult]:
    [None] when the loop runs to its end, otherwise the returned result and
    the positions after the mutation. *)
Fixpoint resolve_attack (origin : CellPosition) (ps : PlayerPositionData)
  : option (AttackResult * PlayerPositionData) :=
  match ps with
  | [] => None
  | (key, ship) :: rest =>
      let continue :=
        match resolve_attack origin rest with
        | Some (r, rest') => Some (r, (key, ship) :: rest')
        | None => None
        end in
      if negb (sunk ship) then
        match find_and_hit origin (cells ship) with
        | Some (hitCell, cs') =>
            let ship' := with_cells ship cs' in
            let destroyed := all_cells_hit cs' in
            let ship'' := if destroyed then set_sunk ship' else ship' in
            Some (AttackHit (cell_origin hitCell) (cell_type hitCell) destroyed,
                  (key, ship'') :: rest)
        | None => continue
        end
      else continue
  end.

(** [determineAttackResult({ origin })]: the result and the player after. *)
Definition determineAttackResult (p : MatchPlayer) (payload : AttackDataPayload)
  : AttackResult * MatchPlayer :=
  let origin := attack_origin payload in
  match resolve_attack origin (positions (board p)) with
  | Some (r, ps') => (r, with_positions p ps')
  | None => (AttackMiss origin, p)
  end.

(** [recordAttackResult(attack, result)], [now] being [Date.now()]. *)
Definition recordAttackResult (p : MatchPlayer) (atk : Loc) (res : AttackResult)
  (now : Z) : MatchPlayer :=
  {| player_uuid := player_uuid p; username := username p; isAi := isAi p;
     player_match := player_match p; score := score p; board := board p;
     attacks := attacks p ++ [{| ts := now; attack := atk; result := res |}] |}.

(** [delete x.prediction] on an attack payload. *)
Definition delete_prediction (x : AttackDataPayload) : AttackDataPayload :=
  {| attack_origin := attack_origin x; prediction := None |}.

(** [{ ...a }]: a new record with the same fields; its [attack] field is the
    same reference as [a.attack]. *)
Definition shallow_copy (a : StoredAttackData) : StoredAttackData :=
  {| ts := ts a; attack := attack a; result := result a |}.

(** The [Object.values(positions).forEach] loop: [board.positions[ship.type]
    = ship] for every sunk ship. *)
Definition reveal_if_sunk (acc : list (ShipType * StoredShipData))
  (ship : StoredShipData) : list (ShipType * StoredShipData) :=
  if sunk ship then prop_set (ship_type ship) ship acc else acc.

(** The [this.attacks.map] callback: copy [a], then [delete
    a.attack.prediction] in the heap. *)
Definition strip_step (acc : list StoredAttackData * Heap) (a : StoredAttackData)
  : list StoredAttackData * Heap :=
  let '(out, h) := acc in
  (out ++ [shallow_copy a], heap_update h (attack a) delete_prediction).

(** [toOpponentJSON()]: the opponent view and the heap after the call. *)
Definition toOpponentJSON (h : Heap) (p : MatchPlayer)
  : MatchOpponentData * Heap :=
  let b := {| opp_valid := valid (board p);
              opp_positions :=
                fold_left reveal_if_sunk (map snd (positions (board p))) [] |} in
  let '(atks, h') := fold_left strip_step (attacks p) ([], h) in
  ({| opp_username := username p; opp_attacks := atks; opp_board := b |}, h').

(** [toJSON()] *)
Definition toJSON (p : MatchPlayer) : MatchPlayerData :=
  {| data_board := board p;
     data_isAi := isAi p;
     data_username := username p;
     data_match := getMatchInstanceUUID p;
     data_attacks := attacks p;
     data_score := score p;
     data_uuid := getUUID p |}.

(** [this.attacks.slice().sort((a, b) => (a.ts > b.ts ? -1 : 1))].  For
    arrays of this size V8 sorts by binary insertion, inserting each
    element after every element [e] with [compare(pivot, e) >= 0]; the
    linear insertion below puts it at the same place. *)
Definition compare_ts (a b : StoredAttackData) : Z :=
  if ts a >? ts b then -1 else 1.

Fixpoint insert_by_ts (x : StoredAttackData) (l : list StoredAttackData)
  : list StoredAttackData :=
  match l with
  | [] => [x]
  | y :: r => if compare_ts x y <? 0 then x :: y :: r else y :: insert_by_ts x r
  end.

Definition sort_by_ts_desc (l : list StoredAttackData) : list StoredAttackData :=
  fold_left (fun sorted x => insert_by_ts x sorted) l [].

(** The counting loop: [count++] on a hit, [break] on a miss. *)
Fixpoint count_hits_loop (l : list StoredAttackData) : nat :=
  match l with
  | [] => 0
  | atk :: r => if result_hit (result atk) then S (count_hits_loop r) else 0
  end.

Definition getContinuousHitsCount (p : MatchPlayer) : nat :=
  count_hits_loop (sort_by_ts_desc (attacks p)).

(** Modelled from the spec (4.1 [expandCells]): the coverage function
    [getCellCoverageForOriginOrientationAndArea] of [@app/utils] (not under
    src/) returns [size] cells from [origin], along x when horizontal and
    along y when vertical. *)
Definition expandCells (origin : CellPosition) (d : Orientation) (size : nat)
  : list CellPosition :=
  map (fun i => match d with
                | Horizontal => (fst origin + Z.of_nat i, snd origin)
                | Vertical => (fst origin, snd origin + Z.of_nat i)
                end) (seq 0 size).

(** ** Observations used by the statements *)

(** The stored attack history as a reader sees it through the heap: each
    record's timestamp, attack input (with its prediction) and result. *)
Definition stored_attack_view (h : Heap) (p : MatchPlayer)
  : list (Z * option AttackDataPayload * AttackResult) :=
  map (fun a => (ts a, nth_error h (attack a), result a)) (attacks p).

(** [toJSON()] output with its [score] field replaced. *)
Definition with_data_score (d : MatchPlayerData) (s : JSValue) : MatchPlayerData :=
  {| data_board := data_board d; data_isAi := data_isAi d;
     data_username := data_username d; data_match := data_match d;
     data_attacks := data_attacks d; data_score := s; data_uuid := data_uuid d |}.

(** A score that is a valid number in the sense of the spec. *)
Definition is_valid_number (v : JSValue) : bool :=
  match v with JSNumber _ => true | _ => false end.

(** [n] is the length of the run of hits at the front of a most-recent-first
    history: its first [n] attacks are hits, and the run stops at a miss or
    at the end of the history. *)
Definition is_hit_run (l : list StoredAttackData) (n : nat) : Prop :=
  Forall (fun a => result_hit (result a) = true) (firstn n l) /\
  (n = List.length l \/
   exists a, nth_error l n = Some a /\ result_hit (result a) = false).

(** "Most recent first": timestamps never increase along the list. *)
Definition ts_ge (a b : StoredAttackData) : Prop := ts b <= ts a.

(** The ship invariant: [sunk] iff every cell is hit. *)
Definition ship_sunk_consistent (s : StoredShipData) : Prop :=
  sunk s = forallb cell_hit (cells s).

(** A ship record keyed by its own type, in an object with unique keys. *)
Definition positions_well_keyed (ps : PlayerPositionData) : Prop :=
  NoDup (map fst ps) /\ Forall (fun ks => ship_type (snd ks) = fst ks) ps.

(** ** Reachable states

    A world is the payload heap together with the player.  Queries
    ([toJSON], [getContinuousHitsCount], [hasAttackedLocation], ...) do not
    change it; [toOpponentJSON] changes the heap only. *)
Inductive reachable (ShipSize : ShipType -> nat)
  (cover : CellPosition -> Orientation -> nat -> list CellPosition)
  : Heap * MatchPlayer -> Prop :=
| reach_new : forall h layout opts,
    opts_board opts = None ->
    reachable ShipSize cover (h, new_MatchPlayer ShipSize cover layout opts)
| reach_from : forall h p layout,
    reachable ShipSize cover (h, p) ->
    reachable ShipSize cover (h, from ShipSize cover layout (toJSON p))
| reach_setShipPositionData : forall h p data v,
    reachable ShipSize cover (h, p) ->
    reachable ShipSize cover (h, setShipPositionData ShipSize cover p data v)
| reach_determineAttackResult : forall h p payload,
    reachable ShipSize cover (h, p) ->
    reachable ShipSize cover (h, snd (determineAttackResult p payload))
| reach_recordAttackResult : forall h p atk res now,
    reachable ShipSize cover (h, p) ->
    reachable ShipSize cover (h, recordAttackResult p atk res now)
| reach_toOpponentJSON : forall h p,
    reachable ShipSize cover (h, p) ->
    reachable ShipSize cover (snd (toOpponentJSON h p), p).

(** ** Concrete inputs *)

Definition two_cells (_ : ShipType) : nat := 2.

Definition no_attack (o : CellPosition) : AttackDataPayload :=
  {| attack_origin := o; prediction := None |}.

Definition opts_fresh (s : JSValue) : MatchPlayerOpts :=
  {| opts_username := "East Voice"; opts_isAi := false;
     opts_uuid := "B03o3v2LvojQE9EHHBJfq"; opts_match := "q5-66RXuTEs-o0kzE_bTj";
     opts_score := s; opts_board := None; opts_attacks := None |}.

(** A two-cell Destroyer at [(0,0)], horizontal: cells [(0,0)] and [(1,0)]. *)
Definition layout_one : ShipPositionData :=
  [(Destroyer, {| placement_origin := (0, 0);
                  placement_orientation := Horizontal |})].

Definition player_one : MatchPlayer :=
  new_MatchPlayer two_cells expandCells layout_one (opts_fresh (JSNumber 0)).

(** One stored attack whose payload at location 0 carries a prediction. *)
Definition heap_pred : Heap :=
  [{| attack_origin := (3, 2);
      prediction := Some {| prediction_origin := (3, 2);
                            prediction_score := 80 |} |}].

Definition player_pred : MatchPlayer :=
  recordAttackResult player_one 0%nat (AttackMiss (3, 2)) 1611142489000.

(** [player_one] after attacks at [(0,0)] and [(1,0)]: the Destroyer is sunk. *)
Definition player_sunk : MatchPlayer :=
  snd (determineAttackResult
         (snd (determineAttackResult player_one (no_attack (0, 0))))
         (no_attack (1, 0))).

Definition destroyer_sunk : StoredShipData :=
  {| sunk := true; ship_type := Destroyer; ship_origin := (0, 0);
     ship_orientation := Horizontal;
     cells := [{| cell_origin := (0, 0); cell_hit := true; cell_type := Destroyer |};
               {| cell_origin := (1, 0); cell_hit := true; cell_type := Destroyer |}] |}.

(** A coverage function that returns no cell at all. *)
Definition no_cover (_ : CellPosition) (_ : Orientation) (_ : nat)
  : list CellPosition := [].

(** Two ships placed over each other (a placement the core does not
    validate): a Submarine at [(1,0)] vertical, cells [(1,0)] and [(1,1)],
    and a Destroyer at [(0,0)] horizontal, cells [(0,0)] and [(1,0)]. *)
Definition layout_overlap : ShipPositionData :=
  [(Submarine, {| placement_origin := (1, 0); placement_orientation := Vertical |});
   (Destroyer, {| placement_origin := (0, 0); placement_orientation := Horizontal |})].

(** The overlapping board after an attack at [(0,0)]: the Destroyer has one
    unhit cell left, [(1,0)], which the unsunk Submarine also covers. *)
Definition player_overlap : MatchPlayer :=
  snd (determineAttackResult
         (setShipPositionData two_cells expandCells player_one layout_overlap false)
         (no_attack (0, 0))).

Definition cell_10_unhit : StoredShipDataCell :=
  {| cell_origin := (1, 0); cell_hit := false; cell_type := Destroyer |}.

Definition destroyer_half : StoredShipData :=
  {| sunk := false; ship_type := Destroyer; ship_origin := (0, 0);
     ship_orientation := Horizontal;
     cells := [{| cell_origin := (0, 0); cell_hit := true; cell_type := Destroyer |};
               cell_10_unhit] |}.

(** ** Further [MatchPlayer] methods *)

Definition isAiPlayer (p : MatchPlayer) : bool := isAi p.

(** [hasAttacked()]: [this.attacks.length > 0]. *)
Definition hasAttacked (p : MatchPlayer) : bool :=
  Nat.ltb 0 (List.length (attacks p)).

(** [hasAttackedLocation(origin)]:
    [!!this.attacks.find((a) => isSameOrigin(a.attack.origin, origin))];
    [a.attack] is read through the heap (a record found is an object, hence
    truthy). *)
Definition hasAttackedLocation (h : Heap) (p : MatchPlayer) (origin : CellPosition)
  : bool :=
  existsb (fun a => match nth_error h (attack a) with
                    | Some x => isSameOrigin (attack_origin x) origin
                    | None => false
                    end) (attacks p).

Definition getShipPositionData (p : MatchPlayer) : PlayerPositionData :=
  positions (board p).

Definition hasLockedValidShipPositions (p : MatchPlayer) : bool :=
  valid (board p).

Definition setMatchInstanceUUID (p : MatchPlayer) (uuid : string) : MatchPlayer :=
  {| player_uuid := player_uuid p; username := username p; isAi := isAi p;
     player_match := uuid; score := score p; board := board p;
     attacks := attacks p |}.

Definition getUsername (p : MatchPlayer) : string := username p.

(** [getShotsFiredCount()]: [this.attacks.length]. *)
Definition getShotsFiredCount (p : MatchPlayer) : nat := List.length (attacks p).

(** A cell that may only have gained its hit flag. *)
Definition cell_le (c c' : StoredShipDataCell) : Prop :=
  cell_origin c = cell_origin c' /\ cell_type c = cell_type c' /\
  (cell_hit c = true -> cell_hit c' = true).

(** A ship whose placement is unchanged and which may only have gained hit
    flags and its sunk flag. *)
Definition ship_le (s s' : StoredShipData) : Prop :=
  ship_type s = ship_type s' /\ ship_origin s = ship_origin s' /\
  ship_orientation s = ship_orientation s' /\
  (sunk s = true -> sunk s' = true) /\ Forall2 cell_le (cells s) (cells s').

(** * Proofs *)

(** ** Opponent view and the stored attack history *)

(** C1 (code_bug): [toOpponentJSON] is meant to strip prediction data from
    copies, but it deletes [a.attack.prediction] on the stored record [a]
    itself (and the shallow copy shares [a.attack] anyway).  For a stored
    attack whose input carries a prediction, the stored history after the
    call differs from the one before: the prediction is gone. *)
Theorem toOpponentJSON_mutates_stored_attack :
  stored_attack_view heap_pred player_pred =
    [(1611142489000, Some {| attack_origin := (3, 2);
                             prediction := Some {| prediction_origin := (3, 2);
                                                   prediction_score := 80 |} |},
      AttackMiss (3, 2))] /\
  stored_attack_view (snd (toOpponentJSON heap_pred player_pred)) player_pred =
    [(1611142489000, Some {| attack_origin := (3, 2); prediction := None |},
      AttackMiss (3, 2))].
Proof. split; vm_compute; reflexivity. Qed.

(** ** Misses *)

Lemma find_and_hit_none (o : CellPosition) (cs : list StoredShipDataCell) :
  (forall c, In c cs -> isSameOrigin (cell_origin c) o = false) ->
  find_and_hit o cs = None.
Proof.
  induction cs as [|c r IH]; intros Hno; simpl; [reflexivity|].
  rewrite (Hno c (or_introl eq_refl)).
  rewrite IH; [reflexivity|].
  intros c' Hc'; apply Hno; right; exact Hc'.
Qed.

Lemma resolve_attack_none (o : CellPosition) (ps : PlayerPositionData) :
  (forall k s c, In (k, s) ps -> sunk s = false -> In c (cells s) ->
                 isSameOrigin (cell_origin c) o = false) ->
  resolve_attack o ps = None.
Proof.
  induction ps as [|[k s] r IH]; intros Hno; simpl; [reflexivity|].
  rewrite IH by (intros k' s' c' Hin; apply (Hno k' s' c'); right; exact Hin).
  destruct (sunk s) eqn:Hs; simpl; [reflexivity|].
  rewrite find_and_hit_none; [reflexivity|].
  intros c Hc; apply (Hno k s c (or_introl eq_refl) Hs Hc).
Qed.

(** C3: an attack whose origin is the origin of no cell of any non-sunk
    ship (in particular of no ship at all) yields [{hit: false, origin}]
    and leaves the whole player state unchanged. *)
Theorem determineAttackResult_miss_unchanged (p : MatchPlayer)
  (payload : AttackDataPayload) :
  (forall k s c, In (k, s) (positions (board p)) -> sunk s = false ->
                 In c (cells s) ->
                 isSameOrigin (cell_origin c) (attack_origin payload) = false) ->
  determineAttackResult p payload = (AttackMiss (attack_origin payload), p).
Proof.
  intros Hno; unfold determineAttackResult.
  rewrite resolve_attack_none by exact Hno; reflexivity.
Qed.

Lemma determineAttackResult_miss_unchanged_witness :
  determineAttackResult player_one (no_attack (5, 5))
  = (AttackMiss (5, 5), player_one).
Proof.
  apply determineAttackResult_miss_unchanged.
  intros k s c Hin _ Hc; vm_compute in Hin.
  destruct Hin as [Heq | []]; inversion Heq; subst; clear Heq.
  simpl in Hc; destruct Hc as [<- | [<- | []]]; reflexivity.
Defined.

(** ** Serialisation *)

(** C7: [MatchPlayer.from(p.toJSON()).toJSON()] is [p.toJSON()], except
    that a [NaN] score comes back as [0]. *)
Theorem toJSON_from_toJSON (ShipSize : ShipType -> nat)
  (cover : CellPosition -> Orientation -> nat -> list CellPosition)
  (layout : ShipPositionData) (p : MatchPlayer) :
  toJSON (from ShipSize cover layout (toJSON p)) = toJSON p \/
  (isNaN (score p) = true /\
   toJSON (from ShipSize cover layout (toJSON p))
   = with_data_score (toJSON p) (JSNumber 0)).
Proof.
  destruct p as [u n ai m s b a]; unfold toJSON, from, new_MatchPlayer; simpl.
  destruct (isNaN s) eqn:Hs; [right; split; reflexivity | left; reflexivity].
Qed.

(** ** Score coercion *)

(** C8: construction is meant to turn a malformed score into [0], but the
    guard [isNaN(opts.score) ? 0 : opts.score] uses the global [isNaN],
    which converts its argument first: [isNaN(null)] is false, so a [null]
    score (what [JSON.stringify] writes for a [NaN] score) is kept as
    [null] instead of becoming [0]. *)
Lemma score_null_not_coerced :
  ~ (forall ShipSize cover layout opts,
        is_valid_number (opts_score opts) = false ->
        score (new_MatchPlayer ShipSize cover layout opts) = JSNumber 0).
Proof.
  intros H.
  specialize (H two_cells expandCells layout_one (opts_fresh JSNull) eq_refl).
  discriminate H.
Qed.

(** What construction does with the score: [0] for the values on which
    the global [isNaN] holds ([NaN], [undefined]); every other value is
    kept unchanged. *)
Theorem new_MatchPlayer_score (ShipSize : ShipType -> nat)
  (cover : CellPosition -> Orientation -> nat -> list CellPosition)
  (layout : ShipPositionData) (opts : MatchPlayerOpts) :
  score (new_MatchPlayer ShipSize cover layout opts)
  = match opts_score opts with
    | JSNaN | JSUndefined => JSNumber 0
    | v => v
    end.
Proof. unfold new_MatchPlayer; simpl; destruct (opts_score opts); reflexivity. Qed.

(** ** The sunk invariant *)

Lemma expandCells_length (o : CellPosition) (d : Orientation) (n : nat) :
  List.length (expandCells o d n) = n.
Proof. unfold expandCells; rewrite length_map, length_seq; reflexivity. Qed.

Lemma all_cells_hit_forallb (cs : list StoredShipDataCell) :
  all_cells_hit cs = forallb cell_hit cs.
Proof.
  unfold all_cells_hit.
  assert (Hgen : forall b, fold_left (fun d v => d && cell_hit v) cs b
                           = b && forallb cell_hit cs).
  { induction cs as [|c r IH]; intros b; simpl.
    - rewrite andb_true_r; reflexivity.
    - rewrite IH, andb_assoc; reflexivity. }
  rewrite Hgen; reflexivity.
Qed.

Lemma prop_set_Forall {V} (P : V -> Prop) (k : ShipType) (v : V)
  (o : list (ShipType * V)) :
  Forall (fun kv => P (snd kv)) o -> P v ->
  Forall (fun kv => P (snd kv)) (prop_set k v o).
Proof.
  induction o as [|[k' v'] r IH]; intros Ho Hv; simpl.
  - constructor; [exact Hv | constructor].
  - inversion Ho as [|x l Hx Hr]; subst.
    destruct (ShipType_eq_dec k k').
    + constructor; assumption.
    + constructor; [assumption | apply IH; assumption].
Qed.

Lemma createShipWithCells_consistent (ShipSize : ShipType -> nat)
  (cover : CellPosition -> Orientation -> nat -> list CellPosition)
  (type : ShipType) (sd : ShipPlacement) :
  cover (placement_origin sd) (placement_orientation sd) (ShipSize type) <> [] ->
  ship_sunk_consistent (createShipWithCells ShipSize cover type sd).
Proof.
  unfold ship_sunk_consistent, createShipWithCells; simpl.
  destruct (cover _ _ _) as [|c r]; [contradiction|]; reflexivity.
Qed.

Lemma createPositionDataWithCells_consistent (ShipSize : ShipType -> nat)
  (cover : CellPosition -> Orientation -> nat -> list CellPosition)
  (data : ShipPositionData) :
  (forall o d t, cover o d (ShipSize t) <> []) ->
  Forall (fun ks => ship_sunk_consistent (snd ks))
         (createPositionDataWithCells ShipSize cover data).
Proof.
  intros Hne; unfold createPositionDataWithCells.
  assert (Hgen : forall acc,
            Forall (fun ks => ship_sunk_consistent (snd ks)) acc ->
            Forall (fun ks => ship_sunk_consistent (snd ks))
              (fold_left (fun updated '(type, shipData) =>
                 prop_set type (createShipWithCells ShipSize cover type shipData)
                          updated) data acc)).
  { induction data as [|[t sd] r IH]; intros acc Hacc; simpl; [exact Hacc|].
    apply IH, prop_set_Forall; [exact Hacc|].
    apply createShipWithCells_consistent, Hne. }
  apply Hgen; constructor.
Qed.

Lemma resolve_attack_consistent (o : CellPosition) (ps ps' : PlayerPositionData)
  (r : AttackResult) :
  Forall (fun ks => ship_sunk_consistent (snd ks)) ps ->
  resolve_attack o ps = Some (r, ps') ->
  Forall (fun ks => ship_sunk_consistent (snd ks)) ps'.
Proof.
  revert ps' r; induction ps as [|[k s] rest IH]; intros ps' r Hps Hres;
    simpl in Hres; [discriminate|].
  inversion Hps as [|x l Hs Hrest]; subst.
  assert (Hcont : match resolve_attack o rest with
                  | Some (r0, rest') => Some (r0, (k, s) :: rest')
                  | None => None
                  end = Some (r, ps') ->
                  Forall (fun ks => ship_sunk_consistent (snd ks)) ps').
  { destruct (resolve_attack o rest) as [[r0 rest']|] eqn:Hr; [|discriminate].
    intros Heq; inversion Heq; subst.
    constructor; [exact Hs | exact (IH rest' r Hrest eq_refl)]. }
  destruct (sunk s) eqn:Hsunk; simpl in Hres; [exact (Hcont Hres)|].
  destruct (find_and_hit o (cells s)) as [[hc cs']|]; [|exact (Hcont Hres)].
  inversion Hres; subst; clear Hres.
  constructor; [|exact Hrest].
  unfold ship_sunk_consistent; simpl.
  rewrite all_cells_hit_forallb.
  destruct (forallb cell_hit cs') eqn:Hall; simpl; rewrite ?Hall; [reflexivity | rewrite Hsunk; reflexivity].
Qed.

(** C2: in every state reachable through the player's own operations
    (construction with a synthesized board, [from] on a snapshot,
    [setShipPositionData], [determineAttackResult], [recordAttackResult],
    [toOpponentJSON] and the queries), every stored ship is sunk exactly
    when all its cells are hit; the coverage function returns [size] cells
    (4.1) and every ship size is positive. *)
Theorem reachable_sunk_iff_all_hit (ShipSize : ShipType -> nat)
  (cover : CellPosition -> Orientation -> nat -> list CellPosition)
  (Hsize : forall t, (0 < ShipSize t)%nat)
  (Hcover : forall o d n, List.length (cover o d n) = n)
  (w : Heap * MatchPlayer) (Hreach : reachable ShipSize cover w) :
  forall k s, In (k, s) (positions (board (snd w))) ->
  sunk s = forallb cell_hit (cells s).
Proof.
  assert (Hne : forall o d t, cover o d (ShipSize t) <> []).
  { intros o d t Hnil; specialize (Hcover o d (ShipSize t)).
    rewrite Hnil in Hcover; specialize (Hsize t); simpl in Hcover; lia. }
  assert (Hinv : Forall (fun ks => ship_sunk_consistent (snd ks))
                        (positions (board (snd w)))).
  { induction Hreach as [h layout opts Hb | h p layout _ IH
                        | h p data v _ IH | h p payload _ IH
                        | h p atk res now _ IH | h p _ IH]; simpl in *.
    - rewrite Hb; apply createPositionDataWithCells_consistent, Hne.
    - exact IH.
    - apply createPositionDataWithCells_consistent, Hne.
    - unfold determineAttackResult.
      destruct (resolve_attack (attack_origin payload) (positions (board p)))
        as [[r ps']|] eqn:Hr; simpl; [|exact IH].
      apply (resolve_attack_consistent _ _ _ _ IH Hr).
    - exact IH.
    - exact IH. }
  intros k s Hin.
  rewrite Forall_forall in Hinv; apply (Hinv (k, s) Hin).
Qed.

Lemma reachable_sunk_iff_all_hit_witness :
  let s := createShipWithCells two_cells expandCells Destroyer
             {| placement_origin := (0, 0); placement_orientation := Horizontal |} in
  sunk s = forallb cell_hit (cells s).
Proof.
  intros s.
  apply (reachable_sunk_iff_all_hit two_cells expandCells
           (fun t => ltac:(unfold two_cells; lia)) expandCells_length
           (heap_pred, player_one)
           (reach_new two_cells expandCells heap_pred layout_one
              (opts_fresh (JSNumber 0)) eq_refl) Destroyer s).
  simpl; left; reflexivity.
Defined.

(** ** Objects keyed by ship type *)

Lemma prop_get_prop_set {V} (t k : ShipType) (v : V) (o : list (ShipType * V)) :
  prop_get t (prop_set k v o)
  = if ShipType_eq_dec t k then Some v else prop_get t o.
Proof.
  induction o as [|[k' v'] r IH]; simpl.
  - destruct (ShipType_eq_dec t k); reflexivity.
  - destruct (ShipType_eq_dec k k') as [<-|Hne]; simpl.
    + destruct (ShipType_eq_dec t k); reflexivity.
    + destruct (ShipType_eq_dec t k') as [->|Hne'].
      * destruct (ShipType_eq_dec k' k) as [->|]; [congruence | reflexivity].
      * exact IH.
Qed.

Lemma prop_get_not_in {V} (t : ShipType) (o : list (ShipType * V)) :
  ~ In t (map fst o) -> prop_get t o = None.
Proof.
  induction o as [|[k v] r IH]; intros Hni; simpl; [reflexivity|].
  destruct (ShipType_eq_dec t k) as [->|]; simpl in Hni.
  - exfalso; apply Hni; left; reflexivity.
  - apply IH; intros Hin; apply Hni; right; exact Hin.
Qed.

Lemma prop_get_In {V} (t : ShipType) (v : V) (o : list (ShipType * V)) :
  prop_get t o = Some v -> In (t, v) o.
Proof.
  induction o as [|[k v'] r IH]; simpl; [discriminate|].
  destruct (ShipType_eq_dec t k) as [->|]; intros H.
  - inversion H; left; reflexivity.
  - right; apply IH, H.
Qed.

(** ** Revealed ships *)

Lemma reveal_fold_prop_get (t : ShipType) (ps : PlayerPositionData) :
  positions_well_keyed ps ->
  forall acc,
  prop_get t (fold_left reveal_if_sunk (map snd ps) acc)
  = match prop_get t ps with
    | Some s => if sunk s then Some s else prop_get t acc
    | None => prop_get t acc
    end.
Proof.
  induction ps as [|[k s] r IH]; intros [Hnd Hty] acc; simpl; [reflexivity|].
  inversion Hnd as [|x l Hni Hnd']; subst.
  inversion Hty as [|x l Hk Hty']; subst; simpl in Hk.
  rewrite IH by (split; assumption).
  unfold reveal_if_sunk.
  destruct (ShipType_eq_dec t k) as [->|Hne].
  - rewrite (prop_get_not_in k r Hni).
    destruct (sunk s); [|reflexivity].
    rewrite prop_get_prop_set, Hk.
    destruct (ShipType_eq_dec k k); [reflexivity | congruence].
  - destruct (prop_get t r) as [s'|]; [destruct (sunk s')|]; try reflexivity;
      destruct (sunk s); try reflexivity; rewrite prop_get_prop_set, Hk;
      destruct (ShipType_eq_dec t k); congruence.
Qed.

(** C6: in the opponent view, the entry for a ship type is present exactly
    when the player's ship of that type is sunk, and it is that ship's
    record; an unsunk ship never appears.  Ship records are keyed by their
    own type, as in every board the player builds. *)
Theorem toOpponentJSON_reveals_only_sunk (h : Heap) (p : MatchPlayer) :
  positions_well_keyed (positions (board p)) ->
  forall t s,
  prop_get t (opp_positions (opp_board (fst (toOpponentJSON h p)))) = Some s
  <-> prop_get t (positions (board p)) = Some s /\ sunk s = true.
Proof.
  intros Hwk t s.
  unfold toOpponentJSON.
  destruct (fold_left strip_step (attacks p) ([], h)) as [atks h'].
  simpl; rewrite (reveal_fold_prop_get t _ Hwk []); simpl.
  destruct (prop_get t (positions (board p))) as [s'|].
  - destruct (sunk s') eqn:Hs; split.
    + intros H; inversion H; subst; split; [reflexivity | exact Hs].
    + intros [H _]; exact H.
    + discriminate.
    + intros [H1 H2]; inversion H1; subst; congruence.
  - split; [discriminate | intros [H _]; discriminate].
Qed.

Lemma toOpponentJSON_reveals_only_sunk_witness :
  prop_get Destroyer
    (opp_positions (opp_board (fst (toOpponentJSON heap_pred player_sunk))))
  = Some destroyer_sunk
  <-> prop_get Destroyer (positions (board player_sunk)) = Some destroyer_sunk
      /\ sunk destroyer_sunk = true.
Proof.
  apply toOpponentJSON_reveals_only_sunk.
  vm_compute; split.
  - constructor; [intros [] | constructor].
  - constructor; [reflexivity | constructor].
Defined.

(** Boards built by the player are keyed by ship type. *)

Lemma prop_set_keys {V} (k t : ShipType) (v : V) (o : list (ShipType * V)) :
  In t (map fst (prop_set k v o)) <-> t = k \/ In t (map fst o).
Proof.
  induction o as [|[k' v'] r IH]; simpl.
  - split; [intros [->|[]]; left | intros [->|[]]; left]; reflexivity.
  - destruct (ShipType_eq_dec k k') as [->|]; simpl.
    + split; [intros H; right; exact H | intros [->|H]; [left|]; auto].
    + rewrite IH; tauto.
Qed.

Lemma prop_set_NoDup {V} (k : ShipType) (v : V) (o : list (ShipType * V)) :
  NoDup (map fst o) -> NoDup (map fst (prop_set k v o)).
Proof.
  induction o as [|[k' v'] r IH]; intros Hnd; simpl.
  - constructor; [intros [] | constructor].
  - inversion Hnd as [|x l Hni Hnd']; subst.
    destruct (ShipType_eq_dec k k') as [->|Hne]; simpl.
    + constructor; assumption.
    + constructor; [|apply IH, Hnd'].
      rewrite prop_set_keys; intros [->|Hin]; [congruence | contradiction].
Qed.

Lemma prop_set_Forall_kv {V} (P : ShipType -> V -> Prop) (k : ShipType) (v : V)
  (o : list (ShipType * V)) :
  Forall (fun kv => P (fst kv) (snd kv)) o -> P k v ->
  Forall (fun kv => P (fst kv) (snd kv)) (prop_set k v o).
Proof.
  induction o as [|[k' v'] r IH]; intros Ho Hv; simpl.
  - constructor; [exact Hv | constructor].
  - inversion Ho as [|x l Hx Hr]; subst.
    destruct (ShipType_eq_dec k k') as [<-|].
    + constructor; assumption.
    + constructor; [assumption | apply IH; assumption].
Qed.

Lemma createPositionDataWithCells_well_keyed (ShipSize : ShipType -> nat)
  (cover : CellPosition -> Orientation -> nat -> list CellPosition)
  (data : ShipPositionData) :
  positions_well_keyed (createPositionDataWithCells ShipSize cover data).
Proof.
  unfold createPositionDataWithCells.
  assert (Hgen : forall acc, positions_well_keyed acc ->
            positions_well_keyed
              (fold_left (fun updated '(type, shipData) =>
                 prop_set type (createShipWithCells ShipSize cover type shipData)
                          updated) data acc)).
  { induction data as [|[t sd] r IH]; intros acc [Hnd Hty]; simpl;
      [split; assumption|].
    apply IH; split.
    - apply prop_set_NoDup, Hnd.
    - apply (prop_set_Forall_kv (fun k s => ship_type s = k)); [exact Hty|].
      reflexivity. }
  apply Hgen; split; constructor.
Qed.

Lemma resolve_attack_keys (o : CellPosition) (ps ps' : PlayerPositionData)
  (r : AttackResult) :
  resolve_attack o ps = Some (r, ps') ->
  map (fun ks => (fst ks, ship_type (snd ks))) ps'
  = map (fun ks => (fst ks, ship_type (snd ks))) ps.
Proof.
  revert ps' r; induction ps as [|[k s] rest IH]; intros ps' r Hres;
    simpl in Hres; [discriminate|].
  assert (Hcont : match resolve_attack o rest with
                  | Some (r0, rest') => Some (r0, (k, s) :: rest')
                  | None => None
                  end = Some (r, ps') ->
                  map (fun ks => (fst ks, ship_type (snd ks))) ps'
                  = map (fun ks => (fst ks, ship_type (snd ks))) ((k, s) :: rest)).
  { destruct (resolve_attack o rest) as [[r0 rest']|] eqn:Hr; [|discriminate].
    intros Heq; inversion Heq; subst; simpl.
    rewrite (IH rest' r eq_refl); reflexivity. }
  destruct (negb (sunk s)); [|exact (Hcont Hres)].
  destruct (find_and_hit o (cells s)) as [[hc cs']|]; [|exact (Hcont Hres)].
  inversion Hres; subst; simpl.
  destruct (all_cells_hit cs'); reflexivity.
Qed.

Lemma well_keyed_of_keys (ps ps' : PlayerPositionData) :
  map (fun ks => (fst ks, ship_type (snd ks))) ps'
  = map (fun ks => (fst ks, ship_type (snd ks))) ps ->
  positions_well_keyed ps -> positions_well_keyed ps'.
Proof.
  revert ps; induction ps' as [|[k' s'] r' IH]; intros ps Hmap [Hnd Hty].
  - split; constructor.
  - destruct ps as [|[k s] r]; [discriminate|].
    simpl in Hmap; inversion Hmap as [[Hk Ht Hr]]; subst.
    inversion Hnd as [|x l Hni Hnd']; subst.
    inversion Hty as [|x l Hs Hty']; subst; simpl in Hs.
    destruct (IH r Hr (conj Hnd' Hty')) as [Hnd'' Hty''].
    assert (Hfst : map fst r' = map fst r).
    { pose proof (f_equal (map fst) Hr) as Hf.
      rewrite !map_map in Hf; exact Hf. }
    split.
    + simpl; constructor; [rewrite Hfst; exact Hni | exact Hnd''].
    + constructor; [simpl; congruence | exact Hty''].
Qed.

(** Every reachable board is keyed by ship type ([positions_well_keyed]),
    the hypothesis of [toOpponentJSON_reveals_only_sunk]. *)
Lemma reachable_positions_well_keyed (ShipSize : ShipType -> nat)
  (cover : CellPosition -> Orientation -> nat -> list CellPosition)
  (w : Heap * MatchPlayer) :
  reachable ShipSize cover w -> positions_well_keyed (positions (board (snd w))).
Proof.
  induction 1 as [h layout opts Hb | h p layout _ IH
                 | h p data v _ IH | h p payload _ IH
                 | h p atk res now _ IH | h p _ IH]; simpl in *.
  - rewrite Hb; apply createPositionDataWithCells_well_keyed.
  - exact IH.
  - apply createPositionDataWithCells_well_keyed.
  - unfold determineAttackResult.
    destruct (resolve_attack (attack_origin payload) (positions (board p)))
      as [[r ps']|] eqn:Hr; simpl; [|exact IH].
    apply (well_keyed_of_keys _ _ (resolve_attack_keys _ _ _ _ Hr) IH).
  - exact IH.
  - exact IH.
Qed.

(** ** Cell lists of stored ships *)

Lemma createPositionDataWithCells_prop_get (ShipSize : ShipType -> nat)
  (cover : CellPosition -> Orientation -> nat -> list CellPosition)
  (data : ShipPositionData) (t : ShipType) :
  NoDup (map fst data) ->
  prop_get t (createPositionDataWithCells ShipSize cover data)
  = match prop_get t data with
    | Some sd => Some (createShipWithCells ShipSize cover t sd)
    | None => None
    end.
Proof.
  unfold createPositionDataWithCells.
  assert (Hgen : forall acc, NoDup (map fst data) ->
            prop_get t (fold_left (fun updated '(type, shipData) =>
                 prop_set type (createShipWithCells ShipSize cover type shipData)
                          updated) data acc)
            = match prop_get t data with
              | Some sd => Some (createShipWithCells ShipSize cover t sd)
              | None => prop_get t acc
              end).
  { induction data as [|[k sd] r IH]; intros acc Hnd; simpl; [reflexivity|].
    inversion Hnd as [|x l Hni Hnd']; subst.
    rewrite (IH _ Hnd'), prop_get_prop_set.
    destruct (ShipType_eq_dec t k) as [->|]; [|reflexivity].
    rewrite (prop_get_not_in k r Hni); reflexivity. }
  intros Hnd; rewrite (Hgen [] Hnd).
  destruct (prop_get t data); reflexivity.
Qed.

(** C9, as stated, fails: there is no cell-count check.  With a coverage
    function that returns fewer cells than the ship size, the board is
    stored with a short cell list and nothing reports an invalid state. *)
Lemma setShipPositionData_no_count_check :
  exists s,
    prop_get Destroyer
      (positions (board (setShipPositionData two_cells no_cover player_one
                           layout_one true))) = Some s /\
    List.length (cells s) <> two_cells Destroyer.
Proof.
  eexists; split; [vm_compute; reflexivity | simpl; discriminate].
Qed.

(** C9 (amended): [setShipPositionData] and construction with a
    synthesized board perform no cell-count check and always succeed; the
    ship stored for each type of the placement is unsunk and its cells are
    exactly the positions the coverage function returns, all unhit, so the
    cell list has the ship's size exactly when the coverage function
    returns that many positions (as it does when it follows 4.1). *)
Theorem stored_ship_cells_from_coverage (ShipSize : ShipType -> nat)
  (cover : CellPosition -> Orientation -> nat -> list CellPosition)
  (data : ShipPositionData) (t : ShipType) (sd : ShipPlacement)
  (Hnd : NoDup (map fst data)) (Ht : prop_get t data = Some sd) :
  let stored s :=
    sunk s = false /\ ship_type s = t /\
    ship_origin s = placement_origin sd /\
    ship_orientation s = placement_orientation sd /\
    map cell_origin (cells s)
      = cover (placement_origin sd) (placement_orientation sd) (ShipSize t) /\
    forallb (fun c => negb (cell_hit c)) (cells s) = true in
  (forall p v,
     exists s, prop_get t (positions (board
                 (setShipPositionData ShipSize cover p data v))) = Some s /\
               stored s) /\
  (forall opts, opts_board opts = None ->
     exists s, prop_get t (positions (board
                 (new_MatchPlayer ShipSize cover data opts))) = Some s /\
               stored s).
Proof.
  intros stored.
  assert (Hs : stored (createShipWithCells ShipSize cover t sd)).
  { unfold stored, createShipWithCells; simpl.
    repeat split; [rewrite map_map; apply map_id|].
    induction (cover _ _ _); simpl; [reflexivity | exact IHl]. }
  split.
  - intros p v; exists (createShipWithCells ShipSize cover t sd); split;
      [|exact Hs].
    simpl; rewrite createPositionDataWithCells_prop_get, Ht by exact Hnd.
    reflexivity.
  - intros opts Hb; exists (createShipWithCells ShipSize cover t sd); split;
      [|exact Hs].
    unfold new_MatchPlayer; rewrite Hb; simpl.
    rewrite createPositionDataWithCells_prop_get, Ht by exact Hnd.
    reflexivity.
Qed.

Lemma stored_ship_cells_from_coverage_witness :
  let sd := {| placement_origin := (0, 0); placement_orientation := Horizontal |} in
  let stored s :=
    sunk s = false /\ ship_type s = Destroyer /\
    ship_origin s = placement_origin sd /\
    ship_orientation s = placement_orientation sd /\
    map cell_origin (cells s)
      = expandCells (placement_origin sd) (placement_orientation sd)
                    (two_cells Destroyer) /\
    forallb (fun c => negb (cell_hit c)) (cells s) = true in
  (forall p v,
     exists s, prop_get Destroyer (positions (board
                 (setShipPositionData two_cells expandCells p layout_one v)))
               = Some s /\ stored s) /\
  (forall opts, opts_board opts = None ->
     exists s, prop_get Destroyer (positions (board
                 (new_MatchPlayer two_cells expandCells layout_one opts)))
               = Some s /\ stored s).
Proof.
  apply (stored_ship_cells_from_coverage two_cells expandCells layout_one
           Destroyer _).
  - constructor; [intros [] | constructor].
  - reflexivity.
Defined.

(** ** What one attack changes *)

Lemma find_and_hit_some (o : CellPosition) (cs cs' : list StoredShipDataCell)
  (hc : StoredShipDataCell) :
  find_and_hit o cs = Some (hc, cs') ->
  exists cs1 c cs2,
    cs = cs1 ++ c :: cs2 /\
    (forall c', In c' cs1 -> isSameOrigin (cell_origin c') o = false) /\
    isSameOrigin (cell_origin c) o = true /\
    hc = set_cell_hit c /\ cs' = cs1 ++ set_cell_hit c :: cs2.
Proof.
  revert cs'; induction cs as [|c r IH]; intros cs' H; simpl in H;
    [discriminate|].
  destruct (isSameOrigin (cell_origin c) o) eqn:Hc.
  - inversion H; subst.
    exists [], c, r; repeat split; try reflexivity; [intros _ []| exact Hc].
  - destruct (find_and_hit o r) as [[hc' r']|] eqn:Hr; [|discriminate].
    inversion H; subst.
    destruct (IH r' eq_refl) as (cs1 & c0 & cs2 & -> & Hpre & Hm & -> & ->).
    exists (c :: cs1), c0, cs2; repeat split; try reflexivity; [|exact Hm].
    intros c' [<-|Hin]; [exact Hc | apply Hpre, Hin].
Qed.

Lemma find_and_hit_none_inv (o : CellPosition) (cs : list StoredShipDataCell) :
  find_and_hit o cs = None ->
  forall c, In c cs -> isSameOrigin (cell_origin c) o = false.
Proof.
  induction cs as [|c r IH]; intros H c' Hin; [destruct Hin|].
  simpl in H; destruct (isSameOrigin (cell_origin c) o) eqn:Hc; [discriminate|].
  destruct (find_and_hit o r) as [[? ?]|] eqn:Hr; [discriminate|].
  destruct Hin as [<-|Hin]; [exact Hc | apply IH; [reflexivity | exact Hin]].
Qed.

(** A ship takes an attack at [o] when it is not sunk and one of its
    cells is at [o]. *)
Definition ship_takes (o : CellPosition) (s : StoredShipData) : bool :=
  negb (sunk s) && existsb (fun c => isSameOrigin (cell_origin c) o) (cells s).

Lemma ship_takes_false (o : CellPosition) (s : StoredShipData) :
  ship_takes o s = false <->
  (sunk s = false -> forall c, In c (cells s) ->
                    isSameOrigin (cell_origin c) o = false).
Proof.
  unfold ship_takes; destruct (sunk s); simpl.
  - split; [discriminate | intros _; reflexivity].
  - rewrite <- not_true_iff_false, existsb_exists; split.
    + intros Hn _ c Hc; apply not_true_iff_false; intros Hm; apply Hn.
      exists c; split; assumption.
    + intros H [c [Hc Hm]]; rewrite (H eq_refl c Hc) in Hm; discriminate.
Qed.

Lemma resolve_attack_none_inv (o : CellPosition) (ps : PlayerPositionData) :
  resolve_attack o ps = None ->
  forall k s, In (k, s) ps -> ship_takes o s = false.
Proof.
  induction ps as [|[k s] r IH]; intros H k' s' Hin; [destruct Hin|].
  simpl in H.
  destruct (resolve_attack o r) as [[? ?]|] eqn:Hr.
  - destruct (negb (sunk s)); [|discriminate].
    destruct (find_and_hit o (cells s)) as [[? ?]|]; discriminate.
  - destruct Hin as [Heq|Hin]; [|apply (IH eq_refl k' s' Hin)].
    inversion Heq; subst; clear Heq.
    apply ship_takes_false; intros Hs.
    rewrite Hs in H; simpl in H.
    destruct (find_and_hit o (cells s')) as [[? ?]|] eqn:Hf; [discriminate|].
    apply find_and_hit_none_inv, Hf.
Qed.

Lemma resolve_attack_some (o : CellPosition) (ps ps' : PlayerPositionData)
  (r : AttackResult) :
  resolve_attack o ps = Some (r, ps') ->
  exists pre k s post cs1 c cs2,
    ps = pre ++ (k, s) :: post /\
    (forall k' s', In (k', s') pre -> ship_takes o s' = false) /\
    sunk s = false /\ cells s = cs1 ++ c :: cs2 /\
    (forall c', In c' cs1 -> isSameOrigin (cell_origin c') o = false) /\
    isSameOrigin (cell_origin c) o = true /\
    ps' = pre ++ (k, {| sunk := forallb cell_hit (cs1 ++ set_cell_hit c :: cs2);
                        ship_type := ship_type s; ship_origin := ship_origin s;
                        ship_orientation := ship_orientation s;
                        cells := cs1 ++ set_cell_hit c :: cs2 |}) :: post /\
    r = AttackHit (cell_origin c) (cell_type c)
                  (forallb cell_hit (cs1 ++ set_cell_hit c :: cs2)).
Proof.
  revert ps' r; induction ps as [|[k s] rest IH]; intros ps' r Hres;
    simpl in Hres; [discriminate|].
  assert (Hcont : match resolve_attack o rest with
                  | Some (r0, rest') => Some (r0, (k, s) :: rest')
                  | None => None
                  end = Some (r, ps') ->
                  ship_takes o s = false ->
                  exists pre k0 s0 post cs1 c cs2,
                    (k, s) :: rest = pre ++ (k0, s0) :: post /\
                    (forall k' s', In (k', s') pre -> ship_takes o s' = false) /\
                    sunk s0 = false /\ cells s0 = cs1 ++ c :: cs2 /\
                    (forall c', In c' cs1 -> isSameOrigin (cell_origin c') o = false) /\
                    isSameOrigin (cell_origin c) o = true /\
                    ps' = pre ++ (k0, {| sunk := forallb cell_hit (cs1 ++ set_cell_hit c :: cs2);
                                         ship_type := ship_type s0;
                                         ship_origin := ship_origin s0;
                                         ship_orientation := ship_orientation s0;
                                         cells := cs1 ++ set_cell_hit c :: cs2 |}) :: post /\
                    r = AttackHit (cell_origin c) (cell_type c)
                                  (forallb cell_hit (cs1 ++ set_cell_hit c :: cs2))).
  { destruct (resolve_attack o rest) as [[r0 rest']|] eqn:Hr; [|discriminate].
    intros Heq Htk; inversion Heq; subst; clear Heq.
    destruct (IH rest' r eq_refl)
      as (pre & k0 & s0 & post & cs1 & c & cs2 & -> & Hpre & Hrest).
    exists ((k, s) :: pre), k0, s0, post, cs1, c, cs2.
    destruct Hrest as (H1 & H2 & H3 & H4 & -> & H6).
    repeat split; try assumption; try reflexivity.
    intros k' s' [Heq|Hin]; [inversion Heq; subst; exact Htk | apply (Hpre k' s' Hin)]. }
  destruct (sunk s) eqn:Hsunk; simpl in Hres.
  - apply (Hcont Hres); unfold ship_takes; rewrite Hsunk; reflexivity.
  - destruct (find_and_hit o (cells s)) as [[hc cs']|] eqn:Hf.
    + inversion Hres; subst; clear Hres.
      destruct (find_and_hit_some _ _ _ _ Hf)
        as (cs1 & c & cs2 & Hcs & Hpre & Hm & -> & ->).
      exists [], k, s, rest, cs1, c, cs2.
      repeat split; try assumption; [intros k' s' []| |].
      * simpl; rewrite all_cells_hit_forallb.
        destruct (forallb cell_hit (cs1 ++ set_cell_hit c :: cs2)) eqn:Hall;
          unfold with_cells, set_sunk; simpl; rewrite ?Hsunk; reflexivity.
      * rewrite all_cells_hit_forallb; reflexivity.
    + apply (Hcont Hres), ship_takes_false.
      intros _; apply find_and_hit_none_inv, Hf.
Qed.

(** C10: one call of [determineAttackResult] either changes nothing and
    misses (no non-sunk ship has a cell at the origin), or hits the first
    non-sunk ship [s] in iteration order with a cell at the origin: only the
    first such cell [c] of [s] gets [hit = true], and [s]'s [sunk] flag,
    false before, becomes the conjunction of its cells' hit flags.  The
    other ships, the attacks, the score, the board's [valid] flag and the
    identity fields are unchanged. *)
Theorem determineAttackResult_frame (p : MatchPlayer)
  (payload : AttackDataPayload) :
  let o := attack_origin payload in
  let r := fst (determineAttackResult p payload) in
  let p' := snd (determineAttackResult p payload) in
  player_uuid p' = player_uuid p /\ username p' = username p /\
  isAi p' = isAi p /\ player_match p' = player_match p /\
  score p' = score p /\ attacks p' = attacks p /\
  valid (board p') = valid (board p) /\
  ((r = AttackMiss o /\ positions (board p') = positions (board p) /\
    forall k s, In (k, s) (positions (board p)) -> ship_takes o s = false) \/
   exists pre k s post cs1 c cs2,
     positions (board p) = pre ++ (k, s) :: post /\
     (forall k' s', In (k', s') pre -> ship_takes o s' = false) /\
     sunk s = false /\ cells s = cs1 ++ c :: cs2 /\
     (forall c', In c' cs1 -> isSameOrigin (cell_origin c') o = false) /\
     isSameOrigin (cell_origin c) o = true /\
     positions (board p') =
       pre ++ (k, {| sunk := forallb cell_hit (cs1 ++ set_cell_hit c :: cs2);
                     ship_type := ship_type s; ship_origin := ship_origin s;
                     ship_orientation := ship_orientation s;
                     cells := cs1 ++ set_cell_hit c :: cs2 |}) :: post /\
     r = AttackHit (cell_origin c) (cell_type c)
                   (forallb cell_hit (cs1 ++ set_cell_hit c :: cs2))).
Proof.
  intros o r p'; subst o r p'; unfold determineAttackResult.
  destruct (resolve_attack (attack_origin payload) (positions (board p)))
    as [[r ps']|] eqn:Hr; simpl.
  - repeat split; right.
    destruct (resolve_attack_some _ _ _ _ Hr)
      as (pre & k & s & post & cs1 & c & cs2 & H1 & H2 & H3 & H4 & H5 & H6 & H7 & H8).
    exists pre, k, s, post, cs1, c, cs2; repeat split; assumption.
  - repeat split; left; repeat split.
    apply resolve_attack_none_inv, Hr.
Qed.

(** ** The last unhit cell of a ship *)

(** C4, as stated, fails: on a board where an unsunk ship earlier in
    iteration order also covers the Destroyer's last unhit cell, the attack
    there hits that other ship and the result is not [destroyed]. *)
Lemma last_unhit_cell_overlap :
  ~ (forall p k s c payload,
       prop_get k (positions (board p)) = Some s -> sunk s = false ->
       In c (cells s) -> cell_hit c = false ->
       (forall c', In c' (cells s) -> c' <> c -> cell_hit c' = true) ->
       attack_origin payload = cell_origin c ->
       exists o t, fst (determineAttackResult p payload) = AttackHit o t true).
Proof.
  intros H.
  destruct (H player_overlap Destroyer destroyer_half cell_10_unhit
              (no_attack (1, 0)))
    as (o & t & Hres).
  - vm_compute; reflexivity.
  - reflexivity.
  - simpl; right; left; reflexivity.
  - reflexivity.
  - intros c' [<-|[<-|[]]] Hne; [reflexivity | contradiction].
  - reflexivity.
  - vm_compute in Hres; discriminate.
Qed.

Lemma isSameOrigin_refl (a : CellPosition) : isSameOrigin a a = true.
Proof. unfold isSameOrigin; rewrite !Z.eqb_refl; reflexivity. Qed.

Lemma find_and_hit_app (o : CellPosition) (cs1 cs2 : list StoredShipDataCell)
  (c : StoredShipDataCell) :
  (forall c', In c' cs1 -> isSameOrigin (cell_origin c') o = false) ->
  isSameOrigin (cell_origin c) o = true ->
  find_and_hit o (cs1 ++ c :: cs2)
  = Some (set_cell_hit c, cs1 ++ set_cell_hit c :: cs2).
Proof.
  induction cs1 as [|c1 r IH]; intros Hpre Hm; simpl; [rewrite Hm; reflexivity|].
  rewrite (Hpre c1 (or_introl eq_refl)).
  rewrite IH; [reflexivity | | exact Hm].
  intros c' Hc'; apply Hpre; right; exact Hc'.
Qed.

Lemma resolve_attack_skip (o : CellPosition) (pre rest : PlayerPositionData) :
  (forall k s, In (k, s) pre -> ship_takes o s = false) ->
  resolve_attack o (pre ++ rest)
  = match resolve_attack o rest with
    | Some (r, rest') => Some (r, pre ++ rest')
    | None => None
    end.
Proof.
  induction pre as [|[k s] r IH]; intros Hpre; simpl.
  - destruct (resolve_attack o rest) as [[? ?]|]; reflexivity.
  - rewrite IH by (intros k' s' Hin; apply (Hpre k' s'); right; exact Hin).
    assert (Hk := Hpre k s (or_introl eq_refl)).
    destruct (sunk s) eqn:Hs; simpl.
    + destruct (resolve_attack o rest) as [[? ?]|]; reflexivity.
    + rewrite find_and_hit_none.
      * destruct (resolve_attack o rest) as [[? ?]|]; reflexivity.
      * apply ship_takes_false; assumption.
Qed.

(** C4 (amended): if a ship [s] is not sunk, exactly one of its cells [c]
    is unhit, and neither an earlier non-sunk ship nor an earlier cell of
    [s] is at [c]'s origin, then the attack at that origin returns a hit
    with [destroyed = true], marks [s] sunk and changes nothing else; and a
    following attack at any origin no other non-sunk ship covers is a miss
    that changes nothing. *)
Theorem last_unhit_cell_sinks (p : MatchPlayer) (payload : AttackDataPayload)
  (pre post : PlayerPositionData) (k : ShipType) (s : StoredShipData)
  (cs1 cs2 : list StoredShipDataCell) (c : StoredShipDataCell)
  (Hpos : positions (board p) = pre ++ (k, s) :: post)
  (Hsunk : sunk s = false) (Hcells : cells s = cs1 ++ c :: cs2)
  (Hunhit : cell_hit c = false)
  (Hothers : forallb cell_hit cs1 = true /\ forallb cell_hit cs2 = true)
  (Horigin : attack_origin payload = cell_origin c)
  (Hpre : forall k' s' c', In (k', s') pre -> sunk s' = false ->
          In c' (cells s') -> isSameOrigin (cell_origin c') (cell_origin c) = false)
  (Hcs1 : forall c', In c' cs1 -> isSameOrigin (cell_origin c') (cell_origin c) = false) :
  let s' := {| sunk := true; ship_type := ship_type s; ship_origin := ship_origin s;
               ship_orientation := ship_orientation s;
               cells := cs1 ++ set_cell_hit c :: cs2 |} in
  determineAttackResult p payload
  = (AttackHit (cell_origin c) (cell_type c) true,
     with_positions p (pre ++ (k, s') :: post)) /\
  forall payload',
    (forall k' s'' c', In (k', s'') (pre ++ post) -> sunk s'' = false ->
       In c' (cells s'') -> isSameOrigin (cell_origin c') (attack_origin payload') = false) ->
    determineAttackResult (with_positions p (pre ++ (k, s') :: post)) payload'
    = (AttackMiss (attack_origin payload'), with_positions p (pre ++ (k, s') :: post)).
Proof.
  intros s'.
  assert (Hfirst : determineAttackResult p payload
    = (AttackHit (cell_origin c) (cell_type c) true,
       with_positions p (pre ++ (k, s') :: post))).
  { unfold determineAttackResult; rewrite Hpos, Horigin.
    rewrite resolve_attack_skip.
    - simpl; rewrite Hsunk; simpl; rewrite Hcells.
      rewrite find_and_hit_app by (assumption || apply isSameOrigin_refl).
      assert (Hall : all_cells_hit (cs1 ++ set_cell_hit c :: cs2) = true).
      { rewrite all_cells_hit_forallb, forallb_app; simpl.
        destruct Hothers as [-> ->]; reflexivity. }
      rewrite Hall; reflexivity.
    - intros k' s'' Hin; apply ship_takes_false; intros Hs'' c' Hc'.
      apply (Hpre k' s'' c' Hin Hs'' Hc'). }
  split; [exact Hfirst|].
  intros payload' Hmiss.
  apply determineAttackResult_miss_unchanged; simpl.
  intros k' s'' c' Hin Hs'' Hc'.
  apply in_app_or in Hin; destruct Hin as [Hin|[Heq|Hin]].
  - apply (Hmiss k' s'' c'); [apply in_or_app; left | |]; assumption.
  - inversion Heq; subst; discriminate.
  - apply (Hmiss k' s'' c'); [apply in_or_app; right | |]; assumption.
Qed.

Lemma last_unhit_cell_sinks_witness :
  let s' := {| sunk := true; ship_type := Destroyer; ship_origin := (0, 0);
               ship_orientation := Horizontal;
               cells := [set_cell_hit {| cell_origin := (0, 0); cell_hit := false;
                                         cell_type := Destroyer |};
                         set_cell_hit {| cell_origin := (1, 0); cell_hit := false;
                                         cell_type := Destroyer |}] |} in
  determineAttackResult (snd (determineAttackResult player_one (no_attack (0, 0))))
                        (no_attack (1, 0))
  = (AttackHit (1, 0) Destroyer true,
     with_positions (snd (determineAttackResult player_one (no_attack (0, 0))))
                    ([] ++ (Destroyer, s') :: [])) /\
  forall payload',
    (forall k' s'' c', In (k', s'') ([] ++ [] : PlayerPositionData) -> sunk s'' = false ->
       In c' (cells s'') -> isSameOrigin (cell_origin c') (attack_origin payload') = false) ->
    determineAttackResult
      (with_positions (snd (determineAttackResult player_one (no_attack (0, 0))))
                      ([] ++ (Destroyer, s') :: [])) payload'
    = (AttackMiss (attack_origin payload'),
       with_positions (snd (determineAttackResult player_one (no_attack (0, 0))))
                      ([] ++ (Destroyer, s') :: [])).
Proof.
  apply (last_unhit_cell_sinks
           (snd (determineAttackResult player_one (no_attack (0, 0))))
           (no_attack (1, 0)) [] [] Destroyer
           {| sunk := false; ship_type := Destroyer; ship_origin := (0, 0);
              ship_orientation := Horizontal;
              cells := [set_cell_hit {| cell_origin := (0, 0); cell_hit := false;
                                        cell_type := Destroyer |};
                        {| cell_origin := (1, 0); cell_hit := false;
                           cell_type := Destroyer |}] |}
           [set_cell_hit {| cell_origin := (0, 0); cell_hit := false;
                            cell_type := Destroyer |}] []
           {| cell_origin := (1, 0); cell_hit := false; cell_type := Destroyer |}).
  - vm_compute; reflexivity.
  - reflexivity.
  - reflexivity.
  - reflexivity.
  - split; reflexivity.
  - reflexivity.
  - intros k' s' c' [].
  - intros c' [<-|[]]; vm_compute; reflexivity.
Defined.

(** ** Consecutive hits *)

Lemma insert_by_ts_perm (x : StoredAttackData) (l : list StoredAttackData) :
  Permutation (x :: l) (insert_by_ts x l).
Proof.
  induction l as [|y r IH]; simpl; [reflexivity|].
  destruct (compare_ts x y <? 0)%Z; [reflexivity|].
  transitivity (y :: x :: r); [apply perm_swap | apply perm_skip, IH].
Qed.

Lemma sort_by_ts_desc_perm (l : list StoredAttackData) :
  Permutation l (sort_by_ts_desc l).
Proof.
  unfold sort_by_ts_desc.
  assert (Hgen : forall acc, Permutation (l ++ acc)
                   (fold_left (fun sorted x => insert_by_ts x sorted) l acc)).
  { induction l as [|x r IH]; intros acc; simpl; [reflexivity|].
    rewrite <- IH.
    transitivity (r ++ x :: acc); [apply Permutation_middle|].
    apply Permutation_app_head, insert_by_ts_perm. }
  rewrite <- Hgen, app_nil_r; reflexivity.
Qed.

Lemma compare_ts_neg (x y : StoredAttackData) :
  (compare_ts x y <? 0)%Z = (ts y <? ts x)%Z.
Proof.
  unfold compare_ts; rewrite Z.gtb_ltb; destruct (ts y <? ts x)%Z; reflexivity.
Qed.

Lemma insert_by_ts_sorted (x : StoredAttackData) (l : list StoredAttackData) :
  Sorted ts_ge l -> Sorted ts_ge (insert_by_ts x l).
Proof.
  induction 1 as [|y r Hr IH Hhd]; simpl.
  - repeat constructor.
  - rewrite compare_ts_neg; destruct (ts y <? ts x)%Z eqn:Hlt.
    + apply Z.ltb_lt in Hlt.
      constructor; [constructor; assumption | constructor; unfold ts_ge; lia].
    + apply Z.ltb_ge in Hlt.
      constructor; [exact IH|].
      destruct r as [|z r']; simpl; [constructor; unfold ts_ge; lia|].
      rewrite compare_ts_neg; destruct (ts z <? ts x)%Z;
        constructor; [unfold ts_ge; lia | inversion Hhd; assumption].
Qed.

Lemma sort_by_ts_desc_sorted (l : list StoredAttackData) :
  Sorted ts_ge (sort_by_ts_desc l).
Proof.
  unfold sort_by_ts_desc.
  assert (Hgen : forall acc, Sorted ts_ge acc ->
            Sorted ts_ge (fold_left (fun sorted x => insert_by_ts x sorted) l acc)).
  { induction l as [|x r IH]; intros acc Hacc; simpl; [exact Hacc|].
    apply IH, insert_by_ts_sorted, Hacc. }
  apply Hgen; constructor.
Qed.

Lemma ts_ge_trans (a b c : StoredAttackData) : ts_ge a b -> ts_ge b c -> ts_ge a c.
Proof. unfold ts_ge; lia. Qed.

(** With pairwise distinct timestamps the most-recent-first order is unique. *)
Lemma sorted_by_ts_unique (l1 l2 : list StoredAttackData) :
  Permutation l1 l2 -> Sorted ts_ge l1 -> Sorted ts_ge l2 ->
  NoDup (map ts l1) -> l1 = l2.
Proof.
  revert l2; induction l1 as [|a r1 IH]; intros l2 Hp H1 H2 Hnd.
  - symmetry; apply Permutation_nil, Hp.
  - destruct l2 as [|b r2]; [apply Permutation_sym, Permutation_nil_cons in Hp; contradiction|].
    apply Sorted_StronglySorted in H1; [|exact ts_ge_trans].
    apply Sorted_StronglySorted in H2; [|exact ts_ge_trans].
    inversion H1 as [|x l S1 F1]; subst.
    inversion H2 as [|x l S2 F2]; subst.
    inversion Hnd as [|x l Hni Hnd']; subst.
    assert (Hab : a = b).
    { destruct (Permutation_in a Hp (or_introl eq_refl)) as [->|Ha]; [reflexivity|].
      destruct (Permutation_in b (Permutation_sym Hp) (or_introl eq_refl))
        as [->|Hb]; [reflexivity|].
      rewrite Forall_forall in F1, F2.
      specialize (F1 b Hb); specialize (F2 a Ha); unfold ts_ge in F1, F2.
      exfalso; apply Hni.
      replace (ts a) with (ts b) by lia; apply in_map, Hb. }
    subst b; f_equal.
    apply IH; [apply Permutation_cons_inv with a; exact Hp
              | apply StronglySorted_Sorted; exact S1
              | apply StronglySorted_Sorted; exact S2 | exact Hnd'].
Qed.

Lemma count_hits_loop_run (l : list StoredAttackData) :
  is_hit_run l (count_hits_loop l).
Proof.
  induction l as [|a r [Hf Hend]]; simpl.
  - split; [constructor | left; reflexivity].
  - destruct (result_hit (result a)) eqn:Ha; simpl.
    + split; [constructor; assumption|].
      destruct Hend as [->|Hm]; [left; reflexivity | right; exact Hm].
    + split; [constructor | right; exists a; split; [reflexivity | exact Ha]].
Qed.

(** C5: [getContinuousHitsCount] is the length of the run of hits at the
    front of the attacks ordered most recent first (by timestamp), stopping
    at the first miss or at the start of history; that order is unique when
    timestamps are pairwise distinct, and in every case the code counts
    along one such order.  In particular the count is [0] when there is no
    attack or the most recent attack was a miss. *)
Theorem getContinuousHitsCount_hit_run (p : MatchPlayer) :
  (exists l, Permutation (attacks p) l /\ Sorted ts_ge l /\
             is_hit_run l (getContinuousHitsCount p)) /\
  (forall l, Permutation (attacks p) l -> Sorted ts_ge l ->
             NoDup (map ts (attacks p)) -> is_hit_run l (getContinuousHitsCount p)) /\
  (attacks p = [] -> getContinuousHitsCount p = 0%nat) /\
  (forall a l, Permutation (attacks p) (a :: l) -> Sorted ts_ge (a :: l) ->
               NoDup (map ts (attacks p)) -> result_hit (result a) = false ->
               getContinuousHitsCount p = 0%nat).
Proof.
  assert (Hsame : forall l, Permutation (attacks p) l -> Sorted ts_ge l ->
            NoDup (map ts (attacks p)) -> sort_by_ts_desc (attacks p) = l).
  { intros l Hp Hs Hnd.
    apply sorted_by_ts_unique; [| apply sort_by_ts_desc_sorted | exact Hs |].
    - transitivity (attacks p); [symmetry; apply sort_by_ts_desc_perm | exact Hp].
    - apply (Permutation_map ts) in Hp.
      apply (Permutation_NoDup (Permutation_map ts (sort_by_ts_desc_perm _))), Hnd. }
  unfold getContinuousHitsCount; split; [|split; [|split]].
  - exists (sort_by_ts_desc (attacks p)); split; [apply sort_by_ts_desc_perm|].
    split; [apply sort_by_ts_desc_sorted | apply count_hits_loop_run].
  - intros l Hp Hs Hnd; rewrite (Hsame l Hp Hs Hnd); apply count_hits_loop_run.
  - intros ->; reflexivity.
  - intros a l Hp Hs Hnd Ha; rewrite (Hsame (a :: l) Hp Hs Hnd); simpl.
    rewrite Ha; reflexivity.
Qed.

(** * Further properties of the player *)

(** ** The heap of attack inputs *)

Lemma nth_error_heap_update (h : Heap) (l i : Loc)
  (f : AttackDataPayload -> AttackDataPayload) :
  nth_error (heap_update h l f) i
  = if Nat.eqb i l then option_map f (nth_error h i) else nth_error h i.
Proof.
  revert l i; induction h as [|x r IH]; intros l i; simpl.
  - destruct l, i; simpl; try reflexivity; destruct (Nat.eqb i l); reflexivity.
  - destruct l as [|l'], i as [|i']; simpl; try reflexivity; apply IH.
Qed.

Lemma strip_fold (l : list StoredAttackData) :
  forall out h,
  fold_left strip_step l (out, h)
  = (out ++ map shallow_copy l,
     fold_left (fun h a => heap_update h (attack a) delete_prediction) l h).
Proof.
  induction l as [|a r IH]; intros out h; simpl.
  - rewrite app_nil_r; reflexivity.
  - rewrite IH, <- app_assoc; reflexivity.
Qed.

Lemma strip_heap_nth (l : list StoredAttackData) :
  forall h i,
  nth_error (fold_left (fun h a => heap_update h (attack a) delete_prediction) l h) i
  = if existsb (fun a => Nat.eqb i (attack a)) l
    then option_map delete_prediction (nth_error h i)
    else nth_error h i.
Proof.
  induction l as [|a r IH]; intros h i; simpl; [reflexivity|].
  rewrite IH, nth_error_heap_update.
  destruct (Nat.eqb i (attack a)); simpl;
    destruct (existsb (fun a0 => Nat.eqb i (attack a0)) r); try reflexivity.
  destruct (nth_error h i); reflexivity.
Qed.

Lemma shallow_copy_id (a : StoredAttackData) : shallow_copy a = a.
Proof. destruct a; reflexivity. Qed.

Lemma delete_prediction_idem (x : AttackDataPayload) :
  delete_prediction (delete_prediction x) = delete_prediction x.
Proof. reflexivity. Qed.

(** [toOpponentJSON] returns the attack records themselves (field for
    field), the username and the board's [valid] flag; in the heap it
    deletes the prediction of exactly the attack inputs the stored records
    point to, keeps their origins, and leaves every other object as it
    was. *)
Theorem toOpponentJSON_effect (h : Heap) (p : MatchPlayer) :
  let v := fst (toOpponentJSON h p) in
  let h' := snd (toOpponentJSON h p) in
  opp_attacks v = attacks p /\ opp_username v = username p /\
  opp_valid (opp_board v) = valid (board p) /\
  (forall i, In i (map attack (attacks p)) ->
     nth_error h' i = option_map delete_prediction (nth_error h i)) /\
  (forall i, ~ In i (map attack (attacks p)) -> nth_error h' i = nth_error h i).
Proof.
  unfold toOpponentJSON; rewrite strip_fold; simpl.
  split; [rewrite (map_ext shallow_copy id shallow_copy_id), map_id; reflexivity|].
  split; [reflexivity|]; split; [reflexivity|].
  split; intros i Hi; rewrite strip_heap_nth.
  - replace (existsb (fun a => Nat.eqb i (attack a)) (attacks p)) with true;
      [reflexivity|symmetry].
    apply existsb_exists; apply in_map_iff in Hi; destruct Hi as [a [<- Ha]].
    exists a; split; [exact Ha | apply Nat.eqb_refl].
  - replace (existsb (fun a => Nat.eqb i (attack a)) (attacks p)) with false;
      [reflexivity|symmetry].
    apply not_true_iff_false; intros Hex; apply Hi.
    apply existsb_exists in Hex; destruct Hex as [a [Ha Heq]].
    apply Nat.eqb_eq in Heq; subst i; apply in_map, Ha.
Qed.

(** Calling [toOpponentJSON] a second time gives the same view and leaves
    the heap as the first call left it. *)
Theorem toOpponentJSON_twice (h : Heap) (p : MatchPlayer) :
  toOpponentJSON (snd (toOpponentJSON h p)) p = toOpponentJSON h p.
Proof.
  unfold toOpponentJSON; rewrite !strip_fold; simpl; f_equal.
  apply nth_error_ext; intros i.
  rewrite !strip_heap_nth.
  destruct (existsb (fun a => Nat.eqb i (attack a)) (attacks p)); [|reflexivity].
  destruct (nth_error h i); reflexivity.
Qed.

Lemma hasAttackedLocation_heap_origins (h h' : Heap) (p : MatchPlayer)
  (o : CellPosition) :
  (forall i, option_map attack_origin (nth_error h' i)
             = option_map attack_origin (nth_error h i)) ->
  hasAttackedLocation h' p o = hasAttackedLocation h p o.
Proof.
  intros Hh; unfold hasAttackedLocation.
  induction (attacks p) as [|a r IH]; simpl; [reflexivity|].
  rewrite IH; f_equal.
  specialize (Hh (attack a)).
  destruct (nth_error h' (attack a)), (nth_error h (attack a));
    simpl in Hh; try discriminate; [|reflexivity].
  inversion Hh as [Heq]; rewrite Heq; reflexivity.
Qed.

(** Stripping predictions for the opponent view does not change which
    locations any player has attacked: [hasAttackedLocation] answers the
    same before and after [toOpponentJSON], for every player reading the
    same heap. *)
Theorem hasAttackedLocation_after_toOpponentJSON (h : Heap) (p q : MatchPlayer)
  (o : CellPosition) :
  hasAttackedLocation (snd (toOpponentJSON h p)) q o = hasAttackedLocation h q o.
Proof.
  apply hasAttackedLocation_heap_origins; intros i.
  unfold toOpponentJSON; rewrite strip_fold; simpl; rewrite strip_heap_nth.
  destruct (existsb _ _); [|reflexivity].
  destruct (nth_error h i); reflexivity.
Qed.

(** After [recordAttackResult(attack, result)], a location counts as
    attacked exactly when it did before or it is the recorded attack's
    origin. *)
Theorem hasAttackedLocation_recordAttackResult (h : Heap) (p : MatchPlayer)
  (atk : Loc) (res : AttackResult) (now : Z) (o : CellPosition) :
  hasAttackedLocation h (recordAttackResult p atk res now) o
  = hasAttackedLocation h p o ||
    match nth_error h atk with
    | Some x => isSameOrigin (attack_origin x) o
    | None => false
    end.
Proof.
  unfold hasAttackedLocation, recordAttackResult; simpl.
  rewrite existsb_app; simpl; rewrite orb_false_r; reflexivity.
Qed.

(** ** Consecutive hits after a new attack *)

Lemma sort_by_ts_desc_app (l : list StoredAttackData) (x : StoredAttackData) :
  sort_by_ts_desc (l ++ [x]) = insert_by_ts x (sort_by_ts_desc l).
Proof. unfold sort_by_ts_desc; rewrite fold_left_app; reflexivity. Qed.

(** Recording an attack newer than every recorded one extends the run of
    consecutive hits by one when it is a hit, and resets it to [0] when it
    is a miss. *)
Theorem getContinuousHitsCount_recordAttackResult (p : MatchPlayer) (atk : Loc)
  (res : AttackResult) (now : Z)
  (Hnewer : forall a, In a (attacks p) -> ts a < now) :
  getContinuousHitsCount (recordAttackResult p atk res now)
  = if result_hit res then S (getContinuousHitsCount p) else 0%nat.
Proof.
  unfold getContinuousHitsCount, recordAttackResult; simpl.
  rewrite sort_by_ts_desc_app.
  destruct (sort_by_ts_desc (attacks p)) as [|y r] eqn:Hs; simpl;
    [destruct (result_hit res); reflexivity|].
  rewrite compare_ts_neg; simpl.
  replace (ts y <? now) with true; [simpl; destruct (result_hit res); reflexivity|].
  symmetry; apply Z.ltb_lt, Hnewer.
  apply (Permutation_in y (Permutation_sym (sort_by_ts_desc_perm (attacks p)))).
  rewrite Hs; left; reflexivity.
Qed.

Lemma getContinuousHitsCount_recordAttackResult_witness :
  getContinuousHitsCount
    (recordAttackResult player_pred 0%nat (AttackHit (3, 2) Destroyer false)
       1611142490000)
  = if result_hit (AttackHit (3, 2) Destroyer false)
    then S (getContinuousHitsCount player_pred) else 0%nat.
Proof.
  apply getContinuousHitsCount_recordAttackResult.
  intros a [<-|[]]; simpl; lia.
Defined.

(** ** Replacing the board *)

Lemma prop_set_keys_new {V} (k : ShipType) (v : V) (o : list (ShipType * V)) :
  ~ In k (map fst o) -> map fst (prop_set k v o) = map fst o ++ [k].
Proof.
  induction o as [|[k' v'] r IH]; intros Hni; simpl; [reflexivity|].
  destruct (ShipType_eq_dec k k') as [->|Hne].
  - exfalso; apply Hni; left; reflexivity.
  - simpl; rewrite IH; [reflexivity|].
    intros Hin; apply Hni; right; exact Hin.
Qed.

(** [setShipPositionData(data, valid)] stores [valid], keeps the attacks,
    the score and the identity, and discards every hit: each stored ship is
    unsunk, keyed by its own type, with all cells unhit; with distinct
    placement keys the ships are stored in the placement's key order. *)
Theorem setShipPositionData_resets (ShipSize : ShipType -> nat)
  (cover : CellPosition -> Orientation -> nat -> list CellPosition)
  (p : MatchPlayer) (data : ShipPositionData) (v : bool) :
  let p' := setShipPositionData ShipSize cover p data v in
  valid (board p') = v /\ attacks p' = attacks p /\ score p' = score p /\
  player_uuid p' = player_uuid p /\ username p' = username p /\
  isAi p' = isAi p /\ player_match p' = player_match p /\
  Forall (fun ks => sunk (snd ks) = false /\ ship_type (snd ks) = fst ks /\
                    forallb (fun c => negb (cell_hit c)) (cells (snd ks)) = true)
         (positions (board p')) /\
  (NoDup (map fst data) -> map fst (positions (board p')) = map fst data).
Proof.
  intros p'; subst p'; simpl.
  repeat split; unfold createPositionDataWithCells.
  - assert (Hgen : forall acc,
      Forall (fun ks => sunk (snd ks) = false /\ ship_type (snd ks) = fst ks /\
                        forallb (fun c => negb (cell_hit c)) (cells (snd ks)) = true) acc ->
      Forall (fun ks => sunk (snd ks) = false /\ ship_type (snd ks) = fst ks /\
                        forallb (fun c => negb (cell_hit c)) (cells (snd ks)) = true)
        (fold_left (fun updated '(type, shipData) =>
           prop_set type (createShipWithCells ShipSize cover type shipData) updated)
           data acc)).
    { induction data as [|[t sd] r IH]; intros acc Hacc; simpl; [exact Hacc|].
      apply IH.
      apply (prop_set_Forall_kv (fun k s => sunk s = false /\ ship_type s = k /\
               forallb (fun c => negb (cell_hit c)) (cells s) = true)); [exact Hacc|].
      unfold createShipWithCells; simpl; repeat split.
      induction (cover _ _ _); simpl; [reflexivity | exact IHl]. }
    apply Hgen; constructor.
  - intros Hnd.
    assert (Hgen : forall acc, NoDup (map fst acc ++ map fst data) ->
      map fst (fold_left (fun updated '(type, shipData) =>
           prop_set type (createShipWithCells ShipSize cover type shipData) updated)
           data acc) = map fst acc ++ map fst data).
    { clear Hnd.
      induction data as [|[t sd] r IH]; intros acc Hnd; simpl;
        [rewrite app_nil_r; reflexivity|].
      simpl in Hnd.
      assert (Hni : ~ In t (map fst acc)).
      { intros Hin; apply NoDup_remove_2 in Hnd; apply Hnd, in_or_app; left; exact Hin. }
      rewrite IH; rewrite (prop_set_keys_new t _ acc Hni);
        [rewrite <- app_assoc; reflexivity|].
      rewrite <- app_assoc; exact Hnd. }
    apply Hgen; exact Hnd.
Qed.

Lemma setShipPositionData_resets_witness :
  map fst (positions (board
    (setShipPositionData two_cells expandCells player_sunk layout_overlap true)))
  = map fst layout_overlap.
Proof.
  destruct (setShipPositionData_resets two_cells expandCells player_sunk
              layout_overlap true) as (_ & _ & _ & _ & _ & _ & _ & _ & H).
  apply H; simpl.
  constructor; [intros [H1|[]]; discriminate | constructor; [intros [] | constructor]].
Defined.

(** ** Attack resolution *)

(** [determineAttackResult] reports a hit exactly when some non-sunk ship
    has a cell at the attack's origin; a hit carries an origin equal to the
    attack's, a miss carries the attack's origin itself. *)
Theorem determineAttackResult_hit_iff (p : MatchPlayer)
  (payload : AttackDataPayload) :
  let o := attack_origin payload in
  let r := fst (determineAttackResult p payload) in
  result_hit r = existsb (fun ks => ship_takes o (snd ks)) (positions (board p)) /\
  match r with
  | AttackHit o' _ _ => isSameOrigin o' o = true
  | AttackMiss o' => o' = o
  end.
Proof.
  intros o r; subst o r; unfold determineAttackResult.
  destruct (resolve_attack (attack_origin payload) (positions (board p)))
    as [[r ps']|] eqn:Hr; simpl.
  - destruct (resolve_attack_some _ _ _ _ Hr)
      as (pre & k & s & post & cs1 & c & cs2 & Hps & Hpre & Hs & Hcs & _ & Hm & _ & ->).
    split; [|exact Hm].
    symmetry; apply existsb_exists; exists (k, s); split.
    + rewrite Hps; apply in_or_app; right; left; reflexivity.
    + unfold ship_takes; simpl; rewrite Hs; simpl; apply existsb_exists.
      exists c; split; [rewrite Hcs; apply in_or_app; right; left; reflexivity | exact Hm].
  - split; [|reflexivity].
    symmetry; apply not_true_iff_false; intros Hex.
    apply existsb_exists in Hex; destruct Hex as [[k s] [Hin Ht]].
    simpl in Ht; rewrite (resolve_attack_none_inv _ _ Hr k s Hin) in Ht; discriminate.
Qed.

Lemma Forall2_refl_on {A} (R : A -> A -> Prop) (l : list A) :
  (forall x, R x x) -> Forall2 R l l.
Proof. intros HR; induction l; constructor; auto. Qed.

Lemma cell_le_refl (c : StoredShipDataCell) : cell_le c c.
Proof. repeat split; auto. Qed.

Lemma ship_le_refl (s : StoredShipData) : ship_le s s.
Proof. repeat split; auto; apply Forall2_refl_on, cell_le_refl. Qed.

(** An attack never undoes anything: after [determineAttackResult] the
    board has the same ship keys in the same order, every ship keeps its
    type, origin, orientation and cell origins, and hit and sunk flags can
    only have gone from false to true. *)
Theorem determineAttackResult_monotone (p : MatchPlayer)
  (payload : AttackDataPayload) :
  Forall2 (fun ks ks' => fst ks = fst ks' /\ ship_le (snd ks) (snd ks'))
          (positions (board p))
          (positions (board (snd (determineAttackResult p payload)))).
Proof.
  assert (Hrefl : forall l : PlayerPositionData,
            Forall2 (fun ks ks' => fst ks = fst ks' /\ ship_le (snd ks) (snd ks')) l l).
  { intros l; apply Forall2_refl_on; intros ks; split; [reflexivity | apply ship_le_refl]. }
  unfold determineAttackResult.
  destruct (resolve_attack (attack_origin payload) (positions (board p)))
    as [[r ps']|] eqn:Hr; simpl; [|apply Hrefl].
  destruct (resolve_attack_some _ _ _ _ Hr)
    as (pre & k & s & post & cs1 & c & cs2 & -> & _ & Hs & Hcs & _ & _ & -> & _).
  apply Forall2_app; [apply Hrefl|].
  constructor; [|apply Hrefl].
  split; [reflexivity|].
  unfold ship_le; simpl; repeat split; [rewrite Hs; discriminate|].
  rewrite Hcs; apply Forall2_app; [apply Forall2_refl_on, cell_le_refl|].
  constructor; [|apply Forall2_refl_on, cell_le_refl].
  unfold cell_le, set_cell_hit; simpl; repeat split; auto.
Qed.

(** Every board reachable through the player's operations stores each
    ship under its own type, with no key twice. *)
Theorem reachable_well_keyed (ShipSize : ShipType -> nat)
  (cover : CellPosition -> Orientation -> nat -> list CellPosition)
  (w : Heap * MatchPlayer) (Hreach : reachable ShipSize cover w) :
  positions_well_keyed (positions (board (snd w))).
Proof. exact (reachable_positions_well_keyed ShipSize cover w Hreach). Qed.

Lemma reachable_well_keyed_witness :
  positions_well_keyed (positions (board player_overlap)).
Proof.
  apply (reachable_well_keyed two_cells expandCells (heap_pred, player_overlap)).
  apply reach_determineAttackResult, reach_setShipPositionData.
  apply (reach_new two_cells expandCells heap_pred layout_one
           (opts_fresh (JSNumber 0)) eq_refl).
Defined.

Lemma resolve_attack_cell_counts (ShipSize : ShipType -> nat) (o : CellPosition)
  (ps ps' : PlayerPositionData) (r : AttackResult) :
  Forall (fun ks => List.length (cells (snd ks)) = ShipSize (ship_type (snd ks))) ps ->
  resolve_attack o ps = Some (r, ps') ->
  Forall (fun ks => List.length (cells (snd ks)) = ShipSize (ship_type (snd ks))) ps'.
Proof.
  intros Hps Hr.
  destruct (resolve_attack_some _ _ _ _ Hr)
    as (pre & k & s & post & cs1 & c & cs2 & -> & _ & _ & Hcs & _ & _ & -> & _).
  apply Forall_app in Hps; destruct Hps as [Hpre Hrest].
  inversion Hrest as [|x l Hs Hpost]; subst.
  apply Forall_app; split; [exact Hpre|].
  constructor; [|exact Hpost].
  simpl in *; rewrite <- Hs, Hcs, !length_app; reflexivity.
Qed.

(** In every reachable state each stored ship has exactly as many cells as
    its type's size, when the coverage function returns [size] cells. *)
Theorem reachable_cell_counts (ShipSize : ShipType -> nat)
  (cover : CellPosition -> Orientation -> nat -> list CellPosition)
  (Hcover : forall o d n, List.length (cover o d n) = n)
  (w : Heap * MatchPlayer) (Hreach : reachable ShipSize cover w) :
  forall k s, In (k, s) (positions (board (snd w))) ->
  List.length (cells s) = ShipSize (ship_type s).
Proof.
  assert (Hcreate : forall data,
    Forall (fun ks => List.length (cells (snd ks)) = ShipSize (ship_type (snd ks)))
           (createPositionDataWithCells ShipSize cover data)).
  { intros data; unfold createPositionDataWithCells.
    assert (Hgen : forall acc,
      Forall (fun ks => List.length (cells (snd ks)) = ShipSize (ship_type (snd ks))) acc ->
      Forall (fun ks => List.length (cells (snd ks)) = ShipSize (ship_type (snd ks)))
        (fold_left (fun updated '(type, shipData) =>
           prop_set type (createShipWithCells ShipSize cover type shipData) updated)
           data acc)).
    { induction data as [|[t sd] r IH]; intros acc Hacc; simpl; [exact Hacc|].
      apply IH, (prop_set_Forall
                   (fun s => List.length (cells s) = ShipSize (ship_type s)));
        [exact Hacc|].
      unfold createShipWithCells; simpl; rewrite length_map; apply Hcover. }
    apply Hgen; constructor. }
  assert (Hinv : Forall (fun ks => List.length (cells (snd ks))
                                   = ShipSize (ship_type (snd ks)))
                        (positions (board (snd w)))).
  { induction Hreach as [h layout opts Hb | h p layout _ IH
                        | h p data v _ IH | h p payload _ IH
                        | h p atk res now _ IH | h p _ IH]; simpl in *.
    - rewrite Hb; apply Hcreate.
    - exact IH.
    - apply Hcreate.
    - unfold determineAttackResult.
      destruct (resolve_attack (attack_origin payload) (positions (board p)))
        as [[r ps']|] eqn:Hr; simpl; [|exact IH].
      apply (resolve_attack_cell_counts _ _ _ _ _ IH Hr).
    - exact IH.
    - exact IH. }
  intros k s Hin; rewrite Forall_forall in Hinv; apply (Hinv (k, s) Hin).
Qed.

Lemma reachable_cell_counts_witness :
  List.length (cells destroyer_sunk) = two_cells (ship_type destroyer_sunk).
Proof.
  apply (reachable_cell_counts two_cells expandCells expandCells_length
           (heap_pred, player_sunk)
           (reach_determineAttackResult _ _ _ _ _
              (reach_determineAttackResult _ _ _ _ _
                 (reach_new two_cells expandCells heap_pred layout_one
                    (opts_fresh (JSNumber 0)) eq_refl))) Destroyer).
  vm_compute; left; reflexivity.
Defined.
